(** * fast_mod: modulo kernels over integer vectors

    Shallow embedding of [code_scheduling/fast_mod.cpp]: five benchmark
    functions that reduce a vector of integers modulo a ceiling, and the
    argument generator that parameterises them.

    The C++ [int] is modelled as a [Z] with the 32-bit range written out;
    [std::vector<int>] as a [list Z] indexed with stdpp's lookup and insert,
    where an index outside the vector is undefined behaviour; the locals of
    a benchmark function as a record threaded through a state-and-error
    monad, which also logs every vector access. *)

From stdpp Require Import base numbers list.
From Stdlib Require Import ZArith Lia.

Local Open Scope Z_scope.

(** ** Machine integers *)

Definition INT_MIN : Z := - 2 ^ 31.
Definition INT_MAX : Z := 2 ^ 31 - 1.

Definition in_int (z : Z) : bool := (INT_MIN <=? z) && (z <=? INT_MAX).

(** Conversion of a wider integer to [int] (what [int N = s.range(0)] does
    to the 64-bit value the library hands out): reduction modulo 2^32. *)
Definition to_int (z : Z) : Z := (z + 2 ^ 31) `mod` 2 ^ 32 - 2 ^ 31.

(** ** Outcomes *)

(** One access to one of the two vectors. *)
Inductive access : Type :=
  | RdInput (i : Z)
  | WrOutput (i : Z).

(** The ways in which the program can leave defined behaviour. *)
Inductive ub : Type :=
  | DivByZero
  | SignedOverflow
  | OutOfBounds (a : access).

(** The exception [std::vector::resize] throws for an impossible size. *)
Inductive exn : Type :=
  | length_error.

Inductive outcome (A : Type) : Type :=
  | Done (a : A)
  | Undefined (u : ub)
  | Throw (e : exn)
  | OutOfFuel.

Arguments Done {A} a.
Arguments Undefined {A} u.
Arguments Throw {A} e.
Arguments OutOfFuel {A}.

(** ** The locals of a benchmark function *)

Record machine : Type := Machine {
  N : Z;
  ceil : Z;
  input : list Z;
  output : list Z;
  trace : list access
}.

(** State of a benchmark function before its first statement. *)
Definition machine0 : machine :=
  {| N := 0; ceil := 0; input := []; output := []; trace := [] |}.

(** ** State and error monad *)

Definition M (A : Type) : Type := machine → outcome (A * machine).

Definition ret {A} (a : A) : M A := λ m, Done (a, m).

Definition bind {A B} (c : M A) (k : A → M B) : M B :=
  λ m, match c m with
       | Done (a, m') => k a m'
       | Undefined u => Undefined u
       | Throw e => Throw e
       | OutOfFuel => OutOfFuel
       end.

Definition undefined {A} (u : ub) : M A := λ _, Undefined u.
Definition throw {A} (e : exn) : M A := λ _, Throw e.
Definition out_of_fuel {A} : M A := λ _, OutOfFuel.

Notation "x <- c ;; k" := (bind c (λ x, k))
  (at level 100, c at next level, right associativity).
Notation "c ;;; k" := (bind c (λ _, k))
  (at level 100, right associativity).

Definition get_N : M Z := λ m, Done (N m, m).
Definition get_ceil : M Z := λ m, Done (ceil m, m).

Definition set_N (n : Z) : M unit := λ m,
  Done (tt, {| N := n; ceil := ceil m; input := input m;
               output := output m; trace := trace m |}).

Definition set_ceil (c : Z) : M unit := λ m,
  Done (tt, {| N := N m; ceil := c; input := input m;
               output := output m; trace := trace m |}).

Definition set_input (v : list Z) : M unit := λ m,
  Done (tt, {| N := N m; ceil := ceil m; input := v;
               output := output m; trace := trace m |}).

Definition set_output (v : list Z) : M unit := λ m,
  Done (tt, {| N := N m; ceil := ceil m; input := input m;
               output := v; trace := trace m |}).

Definition log (a : access) : M unit := λ m,
  Done (tt, {| N := N m; ceil := ceil m; input := input m;
               output := output m; trace := trace m ++ [a] |}).

(** ** Integer operations *)

(** [a + b] on [int]: overflow is undefined. *)
Definition int_add (a b : Z) : M Z :=
  if in_int (a + b) then ret (a + b) else undefined SignedOverflow.

(** [a % b] on [int]: the remainder of the division truncated towards zero;
    undefined for a zero divisor and when the quotient overflows. *)
Definition int_rem (a b : Z) : M Z :=
  if b =? 0 then undefined DivByZero
  else if (a =? INT_MIN) && (b =? -1) then undefined SignedOverflow
  else ret (Z.rem a b).

(** [a << k] on [int], for non-negative [a]: undefined once the result
    leaves the range. *)
Definition int_shl (a k : Z) : outcome Z :=
  if in_int (Z.shiftl a k) then Done (Z.shiftl a k) else Undefined SignedOverflow.

(** [__builtin_expect (exp, c)] evaluates to [exp]. *)
Definition builtin_expect (exp c : Z) : Z := exp.

(** ** Vector operations *)

Definition in_bounds (i : Z) (v : list Z) : bool :=
  (0 <=? i) && (i <? Z.of_nat (length v)).

(** [input[i]] as an rvalue. *)
Definition read_input (i : Z) : M Z := λ m,
  if in_bounds i (input m) then
    match input m !! Z.to_nat i with
    | Some x => (log (RdInput i) ;;; ret x) m
    | None => Undefined (OutOfBounds (RdInput i))
    end
  else Undefined (OutOfBounds (RdInput i)).

(** [output[i] = x]. *)
Definition write_output (i x : Z) : M unit := λ m,
  if in_bounds i (output m) then
    (log (WrOutput i) ;;; set_output (<[Z.to_nat i := x]> (output m))) m
  else Undefined (OutOfBounds (WrOutput i)).

(** [v.resize (n)] on an empty vector of [int], with [n] an [int] converted
    to the unsigned size type: a negative [n] becomes a size no vector can
    have. The new elements are zero. *)
Definition vector_resize (n : Z) : M (list Z) :=
  if n <? 0 then throw length_error else ret (replicate (Z.to_nat n) 0).

(** ** Statements of the kernels *)

(** [output[i] = input[i] % ceil;] *)
Definition assign_mod (i : Z) : M unit :=
  x <- read_input i ;;
  c <- get_ceil ;;
  r <- int_rem x c ;;
  write_output i r.

(** [output[i] = (input[i] >= ceil) ? input[i] % ceil : input[i];] *)
Definition assign_fast (i : Z) : M unit :=
  x <- read_input i ;;
  c <- get_ceil ;;
  r <- (if x >=? c
        then (y <- read_input i ;; c' <- get_ceil ;; int_rem y c')
        else read_input i) ;;
  write_output i r.

(** [output[i] = __builtin_expect (input[i] >= ceil, 0) ? input[i] % ceil : input[i];] *)
Definition assign_hint (i : Z) : M unit :=
  x <- read_input i ;;
  c <- get_ceil ;;
  r <- (if negb (builtin_expect (Z.b2z (x >=? c)) 0 =? 0)
        then (y <- read_input i ;; c' <- get_ceil ;; int_rem y c')
        else read_input i) ;;
  write_output i r.

(** A loop body unrolled by four: the statement at [i], [i + 1], [i + 2]
    and [i + 3]. *)
Definition unroll4 (stmt : Z → M unit) (i : Z) : M unit :=
  stmt i ;;;
  i1 <- int_add i 1 ;; stmt i1 ;;;
  i2 <- int_add i 2 ;; stmt i2 ;;;
  i3 <- int_add i 3 ;; stmt i3.

(** [for (int i = i0; i < N; i += step) body]. The fuel bounds the number
    of iterations; the kernels supply [N] of it, which the loop never
    exhausts. *)
Fixpoint for_loop (fuel : nat) (step : Z) (body : Z → M unit) (i : Z) : M unit :=
  n <- get_N ;;
  if i <? n then
    match fuel with
    | O => out_of_fuel
    | S fuel' =>
        body i ;;;
        i' <- int_add i step ;;
        for_loop fuel' step body i'
    end
  else ret tt.

(** [while (s.KeepRunning ()) body]: the library decides how many times the
    body runs. *)
Fixpoint while_KeepRunning (iterations : nat) (body : M unit) : M unit :=
  match iterations with
  | O => ret tt
  | S k => body ;;; while_KeepRunning k body
  end.

(** ** The five strategies *)

Inductive variant : Type :=
  | BaseMod
  | UnrollMod
  | FastMod
  | FastModHint
  | FastModHintUnroll.

Definition variants : list variant :=
  [BaseMod; UnrollMod; FastMod; FastModHint; FastModHintUnroll].

(** The body of the [for] loop of each benchmark function, and its stride. *)
Definition loop_body (v : variant) : Z → M unit :=
  match v with
  | BaseMod => assign_mod
  | UnrollMod => unroll4 assign_mod
  | FastMod => assign_fast
  | FastModHint => assign_hint
  | FastModHintUnroll => unroll4 assign_hint
  end.

Definition stride (v : variant) : Z :=
  match v with
  | BaseMod | FastMod | FastModHint => 1
  | UnrollMod | FastModHintUnroll => 4
  end.

(** One pass over the vectors: the [for] loop inside the timing loop. *)
Definition pass (v : variant) : M unit := λ m,
  for_loop (Z.to_nat (N m)) (stride v) (loop_body v) 0 m.

(** ** The benchmark functions *)

(** What a benchmark function sees of [benchmark::State]: the two
    arguments of the run and the number of timing iterations. *)
Record State : Type := {
  range0 : Z;
  range1 : Z;
  iterations : nat
}.

(** The common prologue: read the arguments, size both vectors, fill the
    input from the distribution. [draw k] is the [k]-th value the
    generator yields. *)
Definition fixture (s : State) (draw : nat → Z) : M unit :=
  set_N (to_int (range0 s)) ;;;
  set_ceil (to_int (range1 s)) ;;;
  n <- get_N ;;
  inp <- vector_resize n ;;
  set_input inp ;;;
  out <- vector_resize n ;;
  set_output out ;;;
  set_input (draw <$> seq 0 (length inp)).

Definition benchmark (v : variant) (s : State) (draw : nat → Z) : M unit :=
  fixture s draw ;;;
  while_KeepRunning (iterations s) (pass v).

Definition baseMod := benchmark BaseMod.
Definition unrollMod := benchmark UnrollMod.
Definition fastMod := benchmark FastMod.
Definition fastModHint := benchmark FastModHint.
Definition fastModHintUnroll := benchmark FastModHintUnroll.

(** One invocation of the modulo kernel on a given input and ceiling: a
    pass of the chosen strategy over the input and a fresh output vector
    of the same length. *)
Definition kernel_machine (C : Z) (inp : list Z) : machine :=
  {| N := Z.of_nat (length inp); ceil := C; input := inp;
     output := replicate (length inp) 0; trace := [] |}.

Definition ModuloKernel (v : variant) (C : Z) (inp : list Z) : outcome (list Z) :=
  match pass v (kernel_machine C inp) with
  | Done (_, m) => Done (output m)
  | Undefined u => Undefined u
  | Throw e => Throw e
  | OutOfFuel => OutOfFuel
  end.

(** ** The argument generator and the registrations *)

(** What the driver keeps of a registered benchmark: the function and the
    argument pairs added so far. *)
Record Benchmark : Type := {
  bench_fn : variant;
  bench_args : list (Z * Z)
}.

(** [b->ArgPair (i, j)] *)
Definition ArgPair (i j : Z) (b : Benchmark) : Benchmark :=
  {| bench_fn := bench_fn b; bench_args := bench_args b ++ [(i, j)] |}.

(** [for (int j : {32, 128, 224}) b = b->ArgPair (i, j);] *)
Definition custom_args_inner (i : Z) (b : Benchmark) : Benchmark :=
  foldl (λ b j, ArgPair i j b) b [32; 128; 224].

(** [for (...; i <= 1 << 10; i <<= 2) ...] from a given [i]. *)
Fixpoint custom_args_loop (fuel : nat) (i : Z) (b : Benchmark) : outcome Benchmark :=
  match int_shl 1 10 with
  | Done bound =>
      if i <=? bound then
        match fuel with
        | O => OutOfFuel
        | S fuel' =>
            match int_shl i 2 with
            | Done i' => custom_args_loop fuel' i' (custom_args_inner i b)
            | Undefined u => Undefined u
            | Throw e => Throw e
            | OutOfFuel => OutOfFuel
            end
        end
      else Done b
  | Undefined u => Undefined u
  | Throw e => Throw e
  | OutOfFuel => OutOfFuel
  end.

(** An [int] shifted left by two leaves the range within sixteen rounds,
    which bounds the iterations of the outer loop. *)
Definition custom_args (b : Benchmark) : outcome Benchmark :=
  match int_shl 1 4 with
  | Done i0 => custom_args_loop 16 i0 b
  | Undefined u => Undefined u
  | Throw e => Throw e
  | OutOfFuel => OutOfFuel
  end.

(** [BENCHMARK (f)] *)
Definition BENCHMARK (f : variant) : Benchmark :=
  {| bench_fn := f; bench_args := [] |}.

(** [b->Apply (g)] *)
Definition Apply (g : Benchmark → outcome Benchmark) (b : Benchmark) : outcome Benchmark :=
  g b.

(** The five registrations of the file, in order. *)
Definition registrations : list (outcome Benchmark) :=
  [ Apply custom_args (BENCHMARK BaseMod);
    Apply custom_args (BENCHMARK UnrollMod);
    Apply custom_args (BENCHMARK FastMod);
    Apply custom_args (BENCHMARK FastModHint);
    Apply custom_args (BENCHMARK FastModHintUnroll) ].

(** The driver runs a registered function once per argument pair, handing
    the pair over as [range(0)] and [range(1)]. *)
Definition invocations (b : Benchmark) : list (variant * (Z * Z)) :=
  (λ a, (bench_fn b, a)) <$> bench_args b.

(** The grid of the spec: every size with every ceiling, sizes outermost. *)
Definition grid : list (Z * Z) :=
  n ← [16; 64; 256; 1024]; c ← [32; 128; 224]; [(n, c)].

(** * Vocabulary of the properties *)

(** The per-element function of each strategy. *)
Definition elem (v : variant) (c x : Z) : Z :=
  match v with
  | BaseMod | UnrollMod => Z.rem x c
  | FastMod | FastModHint | FastModHintUnroll =>
      if x >=? c then Z.rem x c else x
  end.

(** The accesses each strategy makes for the element at [i]. *)
Definition events (v : variant) (i : Z) : list access :=
  match v with
  | BaseMod | UnrollMod => [RdInput i; WrOutput i]
  | FastMod | FastModHint | FastModHintUnroll =>
      [RdInput i; RdInput i; WrOutput i]
  end.

(** The single statement each loop body is made of. *)
Definition statement (v : variant) : Z → M unit :=
  match v with
  | BaseMod | UnrollMod => assign_mod
  | FastMod => assign_fast
  | FastModHint | FastModHintUnroll => assign_hint
  end.

(** [x % c] is defined. *)
Definition rem_defined (c x : Z) : Prop :=
  c ≠ 0 ∧ ¬ (x = INT_MIN ∧ c = -1).

(** The machine with a new output vector and more accesses logged. *)
Definition upd (m : machine) (out : list Z) (t : list access) : machine :=
  {| N := N m; ceil := ceil m; input := input m;
     output := out; trace := trace m ++ t |}.

(** The machine once the elements below [k] have been processed. *)
Definition after (v : variant) (m : machine) (k : nat) : machine :=
  upd m ((elem v (ceil m) <$> take k (input m)) ++ drop k (output m))
        ((Z.of_nat <$> seq 0 k) ≫= events v).

(** The conditions under which a pass stays within defined behaviour, its
    stride apart: the vectors have [N] elements, [N] is an [int], and
    every remainder is defined. *)
Record well_formed (m : machine) : Prop := {
  wf_N : N m = Z.of_nat (length (input m));
  wf_output : length (output m) = length (input m);
  wf_int : N m ≤ INT_MAX;
  wf_rem : Forall (rem_defined (ceil m)) (input m)
}.

(** The stride as a number of elements. *)
Definition stride_nat (v : variant) : nat := Z.to_nat (stride v).

(** The strategies whose loop body handles four elements. *)
Definition unrolled (v : variant) : bool :=
  match v with
  | UnrollMod | FastModHintUnroll => true
  | BaseMod | FastMod | FastModHint => false
  end.

(** The part of the machine no kernel statement assigns: [N], [ceil] and the
    input vector; the output vector keeps its length. *)
Definition same_frame (m m' : machine) : Prop :=
  N m' = N m ∧ ceil m' = ceil m ∧ input m' = input m
  ∧ length (output m') = length (output m).

(** A computation that, when it completes, has kept that part. *)
Definition preserves {A} (c : M A) : Prop :=
  ∀ m a m', c m = Done (a, m') → same_frame m m'.

(** The value domain of the input: what [dist (0, 255)] yields. *)
Definition in_domain (inp : list Z) : Prop := Forall (λ x, 0 ≤ x ≤ 255) inp.

(** The element count is held in an [int]. *)
Definition fits_int (inp : list Z) : Prop := Z.of_nat (length inp) ≤ INT_MAX.

(** The strategies that compare before they divide. *)
Definition guarded (v : variant) : bool :=
  match v with
  | FastMod | FastModHint | FastModHintUnroll => true
  | BaseMod | UnrollMod => false
  end.

(** A defined failure: the only way the program has of refusing an
    argument. Undefined behaviour is not one. *)
Definition rejected {A} (o : outcome A) : bool :=
  match o with
  | Throw _ => true
  | Done _ | Undefined _ | OutOfFuel => false
  end.

(** The index an access touches. *)
Definition index (a : access) : Z :=
  match a with
  | RdInput i | WrOutput i => i
  end.

(** The indices a trace writes, in the order of the writes. *)
Definition writes (t : list access) : list Z :=
  a ← t; match a with
         | WrOutput i => [i]
         | RdInput _ => []
         end.

(** A computation that never stops for want of fuel. *)
Definition never_starves {A} (c : M A) : Prop := ∀ m, c m ≠ OutOfFuel.

(** A computation that never throws. *)
Definition never_throws {A} (c : M A) : Prop := ∀ m e, c m ≠ Throw e.

(** The machine a benchmark function has built when its timing loop
    starts, for arguments that convert to [n] and [c]. *)
Definition fixture_machine (n c : Z) (draw : nat → Z) : machine :=
  {| N := n; ceil := c; input := draw <$> seq 0 (Z.to_nat n);
     output := replicate (Z.to_nat n) 0; trace := [] |}.

(** Whether the statement of a strategy evaluates [x % c] for the
    element [x]: always when it divides unconditionally, and only from the
    ceiling upwards when it is guarded. *)
Definition divides (v : variant) (c x : Z) : bool :=
  negb (guarded v) || (x >=? c).

(** [x % c] is defined, as a test. *)
Definition rem_ok (c x : Z) : bool :=
  negb (c =? 0) && negb ((x =? INT_MIN) && (c =? -1)).

(** The element [x] takes the statement of the strategy through defined
    behaviour. *)
Definition safe (v : variant) (c x : Z) : bool :=
  negb (divides v c x) || rem_ok c x.

(** What an undefined remainder by [c] is. *)
Definition rem_ub (c : Z) : ub :=
  if c =? 0 then DivByZero else SignedOverflow.

(** The vectors have [N] elements and [N] is an [int]: what the prologue
    establishes, whatever the values and the ceiling. *)
Definition shaped (m : machine) : Prop :=
  N m = Z.of_nat (length (input m))
  ∧ length (output m) = length (input m)
  ∧ N m ≤ INT_MAX.

(** * Properties *)

(** ** What one statement does *)

Lemma upd_upd m o1 t1 o2 t2 : upd (upd m o1 t1) o2 t2 = upd m o2 (t1 ++ t2).
Proof. unfold upd; simpl. by rewrite <- app_assoc. Qed.

Lemma bind_unfold {A B} (c : M A) (k : A → M B) m :
  bind c k m = match c m with
               | Done (a, m') => k a m'
               | Undefined u => Undefined u
               | Throw e => Throw e
               | OutOfFuel => OutOfFuel
               end.
Proof. reflexivity. Qed.

Lemma in_bounds_lookup i (v : list Z) x :
  0 ≤ i → v !! Z.to_nat i = Some x → in_bounds i v = true.
Proof.
  intros Hi Hx. apply lookup_lt_Some in Hx. unfold in_bounds.
  apply andb_true_intro. split; [apply Z.leb_le | apply Z.ltb_lt]; lia.
Qed.

Lemma read_input_done i m x :
  0 ≤ i → input m !! Z.to_nat i = Some x →
  read_input i m = Done (x, upd m (output m) [RdInput i]).
Proof.
  intros Hi Hx. unfold read_input.
  by rewrite (in_bounds_lookup i _ x Hi Hx), Hx.
Qed.

Lemma read_input_past i m :
  Z.of_nat (length (input m)) ≤ i →
  read_input i m = Undefined (OutOfBounds (RdInput i)).
Proof.
  intros Hi. unfold read_input, in_bounds.
  replace (i <? Z.of_nat (length (input m))) with false
    by (symmetry; apply Z.ltb_ge; lia).
  by rewrite andb_false_r.
Qed.

Lemma write_output_done i x m :
  0 ≤ i → (Z.to_nat i < length (output m))%nat →
  write_output i x m = Done (tt, upd m (<[Z.to_nat i := x]> (output m)) [WrOutput i]).
Proof.
  intros Hi Hlt. unfold write_output, in_bounds.
  replace (0 <=? i) with true by (symmetry; apply Z.leb_le; lia).
  replace (i <? Z.of_nat (length (output m))) with true
    by (symmetry; apply Z.ltb_lt; lia).
  reflexivity.
Qed.

Lemma int_rem_done c x m :
  rem_defined c x → int_rem x c m = Done (Z.rem x c, m).
Proof.
  intros [Hc Hx]. unfold int_rem.
  destruct (Z.eqb_spec c 0) as [|_]; [done|].
  destruct (Z.eqb_spec x INT_MIN) as [Hmin|_]; [|done].
  destruct (Z.eqb_spec c (-1)) as [Hm1|_]; [|done].
  by destruct Hx.
Qed.

Lemma int_add_done a b m :
  INT_MIN ≤ a + b ≤ INT_MAX → int_add a b m = Done (a + b, m).
Proof.
  intros [Hl Hu]. unfold int_add, in_int.
  apply Z.leb_le in Hl, Hu. by rewrite Hl, Hu.
Qed.

(** Each of the three statements stores the strategy's element function of
    [input[i]] at [output[i]], and touches nothing but index [i]. *)
Lemma statement_done v i m x :
  0 ≤ i → input m !! Z.to_nat i = Some x →
  (Z.to_nat i < length (output m))%nat →
  rem_defined (ceil m) x →
  statement v i m
  = Done (tt, upd m (<[Z.to_nat i := elem v (ceil m) x]> (output m)) (events v i)).
Proof.
  intros Hi Hx Hlt Hdef.
  destruct v; simpl; unfold assign_mod, assign_fast, assign_hint, builtin_expect;
    rewrite bind_unfold, (read_input_done i m x) by done; cbn beta iota;
    rewrite bind_unfold; unfold get_ceil at 1; cbn beta iota;
    try (change (ceil (upd m (output m) [RdInput i])) with (ceil m);
         destruct (x >=? ceil m); simpl);
    repeat first
      [ rewrite (read_input_done i _ x) by done
      | rewrite int_rem_done by done
      | rewrite write_output_done by done
      | rewrite bind_unfold
      | progress unfold get_ceil
      | progress cbn beta iota ];
    by rewrite ?upd_upd.
Qed.

Lemma statement_past v i m :
  Z.of_nat (length (input m)) ≤ i →
  statement v i m = Undefined (OutOfBounds (RdInput i)).
Proof.
  intros Hi.
  destruct v; simpl; unfold assign_mod, assign_fast, assign_hint;
    by rewrite bind_unfold, read_input_past.
Qed.

(** ** What a loop does *)

Lemma loop_body_statement v :
  loop_body v = if unrolled v then unroll4 (statement v) else statement v.
Proof. by destruct v. Qed.

Lemma stride_unrolled v : stride v = if unrolled v then 4 else 1.
Proof. by destruct v. Qed.

Lemma after_0 v m : after v m 0 = m.
Proof.
  destruct m. unfold after, upd; simpl. by rewrite drop_0, app_nil_r.
Qed.

Lemma after_all v m :
  length (output m) = length (input m) →
  after v m (length (input m))
  = upd m (elem v (ceil m) <$> input m)
          ((Z.of_nat <$> seq 0 (length (input m))) ≫= events v).
Proof.
  intros Hlen. unfold after.
  by rewrite firstn_all, <- Hlen, drop_all, app_nil_r.
Qed.

Lemma statement_after v m (k : nat) :
  well_formed m → (k < length (input m))%nat →
  statement v (Z.of_nat k) (after v m k) = Done (tt, after v m (S k)).
Proof.
  intros Hwf Hk.
  destruct (lookup_lt_is_Some_2 (input m) k Hk) as [x Hx].
  assert (Hko : (k < length (output m))%nat) by (by rewrite (wf_output m Hwf)).
  destruct (lookup_lt_is_Some_2 (output m) k Hko) as [z Hz].
  assert (Hpre : length (elem v (ceil m) <$> take k (input m)) = k).
  { rewrite length_fmap, length_take. lia. }
  rewrite (statement_done v _ _ x).
  - rewrite Nat2Z.id. unfold after at 1 2 3. rewrite upd_upd. simpl.
    unfold after. do 3 f_equal.
    + rewrite insert_app_r_alt by lia. rewrite Hpre, Nat.sub_diag.
      rewrite (drop_S _ _ _ Hz). simpl.
      rewrite (take_S_r _ _ _ Hx), fmap_app. simpl.
      by rewrite <- app_assoc.
    + rewrite seq_S, fmap_app, bind_app. simpl. by rewrite app_nil_r.
  - lia.
  - by rewrite Nat2Z.id.
  - rewrite Nat2Z.id. simpl. rewrite length_app, Hpre, length_drop. lia.
  - simpl. eapply Forall_lookup_1; [apply (wf_rem m Hwf) | apply Hx].
Qed.

Lemma unroll4_after v m (k : nat) :
  well_formed m → (k + 4 ≤ length (input m))%nat →
  unroll4 (statement v) (Z.of_nat k) (after v m k) = Done (tt, after v m (k + 4)).
Proof.
  intros Hwf Hk.
  assert (Hmax : Z.of_nat (length (input m)) ≤ INT_MAX).
  { rewrite <- (wf_N m Hwf). apply (wf_int m Hwf). }
  assert (Hmin : INT_MIN ≤ 0) by done.
  unfold unroll4.
  rewrite bind_unfold, statement_after by (done || lia).
  rewrite bind_unfold, int_add_done by lia.
  replace (Z.of_nat k + 1) with (Z.of_nat (S k)) by lia.
  rewrite bind_unfold, statement_after by (done || lia).
  rewrite bind_unfold, int_add_done by lia.
  replace (Z.of_nat k + 2) with (Z.of_nat (S (S k))) by lia.
  rewrite bind_unfold, statement_after by (done || lia).
  rewrite bind_unfold, int_add_done by lia.
  replace (Z.of_nat k + 3) with (Z.of_nat (S (S (S k)))) by lia.
  rewrite statement_after by (done || lia).
  do 3 f_equal. lia.
Qed.

Lemma loop_body_after v m (k : nat) :
  well_formed m → (k + stride_nat v ≤ length (input m))%nat →
  loop_body v (Z.of_nat k) (after v m k)
  = Done (tt, after v m (k + stride_nat v)).
Proof.
  intros Hwf Hk. rewrite loop_body_statement.
  unfold stride_nat in *. rewrite stride_unrolled in *.
  destruct (unrolled v).
  - by apply unroll4_after.
  - replace (k + Z.to_nat 1)%nat with (S k) by lia.
    apply statement_after; [done | lia].
Qed.

Lemma stride_nat_pos v : (1 ≤ stride_nat v)%nat.
Proof. destruct v; unfold stride_nat; simpl; lia. Qed.

Lemma stride_nat_Z v : stride v = Z.of_nat (stride_nat v).
Proof. destruct v; unfold stride_nat; simpl; lia. Qed.

Lemma for_loop_exit fuel step body i m :
  N m ≤ i → for_loop fuel step body i m = Done (tt, m).
Proof.
  intros Hi.
  destruct fuel; simpl; rewrite bind_unfold; unfold get_N;
    by replace (i <? N m) with false by (symmetry; apply Z.ltb_ge; lia).
Qed.

Lemma for_loop_enter fuel step body i m :
  i < N m →
  for_loop (S fuel) step body i m
  = (body i ;;; i' <- int_add i step ;; for_loop fuel step body i') m.
Proof.
  intros Hi. simpl. rewrite bind_unfold. unfold get_N.
  by replace (i <? N m) with true by (symmetry; apply Z.ltb_lt; lia).
Qed.

(** [j] full iterations from index [k] consume [j] units of fuel and
    process [j] strides of elements. *)
Lemma for_loop_after v m (j : nat) :
  well_formed m →
  ∀ (k fuel : nat),
    (k + j * stride_nat v ≤ length (input m))%nat →
    for_loop (j + fuel) (stride v) (loop_body v) (Z.of_nat k) (after v m k)
    = for_loop fuel (stride v) (loop_body v)
        (Z.of_nat (k + j * stride_nat v)) (after v m (k + j * stride_nat v)).
Proof.
  intros Hwf. induction j as [|j IH]; intros k fuel Hk.
  - simpl. by rewrite Nat.add_0_r.
  - pose proof (stride_nat_pos v) as Hpos.
    assert (Hmax : Z.of_nat (length (input m)) ≤ INT_MAX).
    { rewrite <- (wf_N m Hwf). apply (wf_int m Hwf). }
    assert (Hmin : INT_MIN ≤ 0) by done.
    change (S j + fuel)%nat with (S (j + fuel)).
    rewrite for_loop_enter by (simpl; rewrite (wf_N m Hwf); lia).
    rewrite bind_unfold, loop_body_after by (done || lia).
    rewrite bind_unfold, int_add_done by (rewrite stride_nat_Z; lia).
    replace (Z.of_nat k + stride v) with (Z.of_nat (k + stride_nat v))
      by (rewrite stride_nat_Z; lia).
    rewrite IH by lia.
    by replace (k + stride_nat v + j * stride_nat v)%nat
      with (k + S j * stride_nat v)%nat by lia.
Qed.

(** A pass over well-formed vectors whose length is a multiple of the
    stride ends normally: the input is mapped through the element
    function into the output, and nothing else changes. *)
Lemma pass_done v m :
  well_formed m → (N m) `mod` (stride v) = 0 →
  pass v m
  = Done (tt, upd m (elem v (ceil m) <$> input m)
                    ((Z.of_nat <$> seq 0 (length (input m))) ≫= events v)).
Proof.
  intros Hwf Hmod.
  pose proof (stride_nat_pos v) as Hpos.
  pose proof (stride_nat_Z v) as HZ.
  set (len := length (input m)).
  assert (HN : N m = Z.of_nat len) by apply (wf_N m Hwf).
  apply Z.mod_divide in Hmod; [|lia].
  destruct Hmod as [q Hq].
  assert (Hlen : len = (Z.to_nat q * stride_nat v)%nat) by nia.
  unfold pass. rewrite HN, Nat2Z.id.
  rewrite <- (after_0 v m) at 1. change 0 with (Z.of_nat 0).
  replace len with (Z.to_nat q + (len - Z.to_nat q))%nat at 1 by nia.
  rewrite for_loop_after by (done || (fold len; lia)).
  simpl. rewrite <- Hlen.
  rewrite for_loop_exit by (simpl; lia).
  unfold len. by rewrite after_all by apply (wf_output m Hwf).
Qed.

(** ** Leaving defined behaviour *)

Lemma int_rem_zero x m : int_rem x 0 m = Undefined DivByZero.
Proof. reflexivity. Qed.

(** With a zero ceiling, the statement divides a non-negative element by
    zero, whatever the strategy. *)
Lemma statement_div_zero v i m x :
  0 ≤ i → input m !! Z.to_nat i = Some x → ceil m = 0 → 0 ≤ x →
  statement v i m = Undefined DivByZero.
Proof.
  intros Hi Hx Hc Hpos.
  assert (Hge : (x >=? 0) = true) by (rewrite Z.geb_leb; by apply Z.leb_le).
  destruct v; simpl; unfold assign_mod, assign_fast, assign_hint, builtin_expect;
    rewrite bind_unfold, (read_input_done i m x) by done; cbn beta iota;
    rewrite bind_unfold; unfold get_ceil at 1; cbn beta iota;
    change (ceil (upd m (output m) [RdInput i])) with (ceil m);
    rewrite Hc, ?Hge; simpl;
    repeat first
      [ rewrite (read_input_done i _ x) by done
      | rewrite int_rem_zero
      | rewrite bind_unfold
      | progress unfold get_ceil
      | progress (simpl; rewrite ?Hc)
      | progress cbn beta iota ];
    reflexivity.
Qed.

Lemma pass_div_zero v m x rest :
  N m = Z.of_nat (length (input m)) →
  input m = x :: rest → 0 ≤ x → ceil m = 0 →
  pass v m = Undefined DivByZero.
Proof.
  intros HN Hin Hx Hc.
  assert (Hst : statement v 0 m = Undefined DivByZero).
  { apply (statement_div_zero v 0 m x); [done | by rewrite Hin | done | done]. }
  unfold pass. rewrite HN, Nat2Z.id, Hin. simpl length.
  rewrite for_loop_enter by (rewrite HN, Hin; simpl length; lia).
  rewrite bind_unfold, loop_body_statement.
  destruct (unrolled v); [unfold unroll4; rewrite bind_unfold|]; by rewrite Hst.
Qed.

(** The unrolled body run on the last, incomplete group of elements: the
    statements on the elements that exist succeed, the next one reads
    [input[N]]. *)
Lemma unroll4_past v m (k : nat) :
  well_formed m →
  (k < length (input m))%nat → (length (input m) < k + 4)%nat →
  unroll4 (statement v) (Z.of_nat k) (after v m k)
  = Undefined (OutOfBounds (RdInput (N m))).
Proof.
  intros Hwf Hlo Hhi.
  assert (Hmax : Z.of_nat (length (input m)) ≤ INT_MAX).
  { rewrite <- (wf_N m Hwf). apply (wf_int m Hwf). }
  assert (Hmin : INT_MIN ≤ 0) by done.
  assert (Hpast : ∀ j : nat, j = length (input m) →
            statement v (Z.of_nat j) (after v m j)
            = Undefined (OutOfBounds (RdInput (N m)))).
  { intros j ->. rewrite statement_past by (simpl; lia).
    by rewrite (wf_N m Hwf). }
  unfold unroll4.
  rewrite bind_unfold, statement_after by done.
  rewrite bind_unfold, int_add_done by lia.
  replace (Z.of_nat k + 1) with (Z.of_nat (S k)) by lia.
  rewrite bind_unfold.
  destruct (decide (S k = length (input m))) as [E1|N1];
    [by rewrite Hpast|].
  rewrite statement_after by (done || lia).
  rewrite bind_unfold, int_add_done by lia.
  replace (Z.of_nat k + 2) with (Z.of_nat (S (S k))) by lia.
  rewrite bind_unfold.
  destruct (decide (S (S k) = length (input m))) as [E2|N2];
    [by rewrite Hpast|].
  rewrite statement_after by (done || lia).
  rewrite bind_unfold, int_add_done by lia.
  replace (Z.of_nat k + 3) with (Z.of_nat (S (S (S k)))) by lia.
  apply Hpast. lia.
Qed.

(** An unrolled pass over vectors whose length is not a multiple of four
    completes the full groups and then indexes past the end. *)
Lemma pass_past v m :
  well_formed m → unrolled v = true → (N m) `mod` 4 ≠ 0 →
  pass v m = Undefined (OutOfBounds (RdInput (N m))).
Proof.
  intros Hwf Hun Hmod.
  set (len := length (input m)).
  assert (HN : N m = Z.of_nat len) by apply (wf_N m Hwf).
  assert (Hs : stride_nat v = 4%nat).
  { unfold stride_nat. rewrite stride_unrolled, Hun. done. }
  assert (Hs' : stride v = 4) by (by rewrite stride_unrolled, Hun).
  assert (Hdm : N m = 4 * N m `div` 4 + N m `mod` 4) by (by apply Z.div_mod).
  assert (Hbd : 0 ≤ N m `mod` 4 < 4) by (by apply Z.mod_pos_bound).
  set (q := Z.to_nat (N m `div` 4)).
  assert (Hq : (q * 4 < len)%nat ∧ (len < q * 4 + 4)%nat) by lia.
  unfold pass. rewrite HN, Nat2Z.id.
  rewrite <- (after_0 v m) at 1. change 0 with (Z.of_nat 0).
  replace len with (q + S (len - q - 1))%nat at 1 by lia.
  rewrite for_loop_after by (done || (rewrite Hs; fold len; lia)).
  rewrite Hs. simpl "+"%nat.
  rewrite for_loop_enter by (simpl; lia).
  rewrite bind_unfold, loop_body_statement, Hun.
  rewrite unroll4_past by (done || (fold len; lia)).
  by rewrite HN.
Qed.

(** ** What a pass leaves alone *)

Lemma same_frame_refl m : same_frame m m.
Proof. by repeat split. Qed.

Lemma same_frame_trans m1 m2 m3 :
  same_frame m1 m2 → same_frame m2 m3 → same_frame m1 m3.
Proof.
  unfold same_frame. intros (?&?&?&?) (?&?&?&?).
  repeat split; congruence.
Qed.

Create HintDb frame.

Lemma preserves_ret {A} (a : A) : preserves (ret a).
Proof. intros m a' m' [= _ <-]. apply same_frame_refl. Qed.

Lemma preserves_bind {A B} (c : M A) (k : A → M B) :
  preserves c → (∀ a, preserves (k a)) → preserves (bind c k).
Proof.
  intros Hc Hk m b m'. rewrite bind_unfold.
  destruct (c m) as [[a m1]| | |] eqn:E; try discriminate.
  intros Hrun. eapply same_frame_trans; [by eapply Hc | by eapply Hk].
Qed.

Lemma preserves_undefined {A} u : preserves (@undefined A u).
Proof. intros m a m' [=]. Qed.

Lemma preserves_out_of_fuel {A} : preserves (@out_of_fuel A).
Proof. intros m a m' [=]. Qed.

Lemma preserves_get_N : preserves get_N.
Proof. intros m a m' [= _ <-]. apply same_frame_refl. Qed.

Lemma preserves_get_ceil : preserves get_ceil.
Proof. intros m a m' [= _ <-]. apply same_frame_refl. Qed.

Lemma preserves_log a : preserves (log a).
Proof. intros m [] m' [= <-]. by repeat split. Qed.

Lemma preserves_int_add a b : preserves (int_add a b).
Proof.
  unfold int_add. destruct (in_int (a + b));
    [apply preserves_ret | apply preserves_undefined].
Qed.

Lemma preserves_int_rem a b : preserves (int_rem a b).
Proof.
  unfold int_rem. destruct (b =? 0); [apply preserves_undefined|].
  destruct ((a =? INT_MIN) && (b =? -1));
    [apply preserves_undefined | apply preserves_ret].
Qed.

Lemma preserves_read_input i : preserves (read_input i).
Proof.
  intros m x m'. unfold read_input.
  destruct (in_bounds i (input m)); [|discriminate].
  destruct (input m !! Z.to_nat i); [|discriminate].
  intros [= _ <-]. by repeat split.
Qed.

Lemma preserves_write_output i x : preserves (write_output i x).
Proof.
  intros m [] m'. unfold write_output.
  destruct (in_bounds i (output m)); [|discriminate].
  intros [= <-]. repeat split. simpl. apply length_insert.
Qed.

#[local] Hint Resolve preserves_ret preserves_undefined preserves_out_of_fuel
  preserves_get_N preserves_get_ceil preserves_log preserves_int_add
  preserves_int_rem preserves_read_input preserves_write_output : frame.

Ltac frame_step :=
  repeat first
    [ apply preserves_bind; [|intros ?]
    | match goal with |- preserves (if ?b then _ else _) => destruct b end
    | solve [auto with frame] ].

Lemma preserves_statement v i : preserves (statement v i).
Proof.
  destruct v; simpl; unfold assign_mod, assign_fast, assign_hint; frame_step.
Qed.

Lemma preserves_loop_body v i : preserves (loop_body v i).
Proof.
  rewrite loop_body_statement.
  destruct (unrolled v); [unfold unroll4|];
    repeat first
      [ apply preserves_statement
      | apply preserves_int_add
      | apply preserves_bind; [|intros ?] ].
Qed.

Lemma preserves_for_loop fuel step body :
  (∀ i, preserves (body i)) → ∀ i, preserves (for_loop fuel step body i).
Proof.
  intros Hbody. induction fuel as [|fuel IH]; intros i; simpl.
  - apply preserves_bind; [auto with frame|]. intros n.
    destruct (i <? n); auto with frame.
  - apply preserves_bind; [auto with frame|]. intros n.
    destruct (i <? n); [|auto with frame].
    apply preserves_bind; [apply Hbody|]. intros _.
    apply preserves_bind; [auto with frame|]. intros i'. apply IH.
Qed.

Lemma preserves_pass v : preserves (pass v).
Proof.
  intros m a m'. unfold pass.
  apply preserves_for_loop, preserves_loop_body.
Qed.

Lemma preserves_while_KeepRunning k body :
  preserves body → preserves (while_KeepRunning k body).
Proof.
  intros Hbody. induction k as [|k IH]; simpl.
  - apply preserves_ret.
  - apply preserves_bind; [done | by intros _].
Qed.

(** ** One kernel invocation *)

Lemma rem_defined_nonneg C x : C ≠ 0 → 0 ≤ x → rem_defined C x.
Proof. intros HC Hx. split; [done|]. unfold INT_MIN. intros [-> _]. lia. Qed.

Lemma rem_defined_pos C x : 0 < C → rem_defined C x.
Proof. intros HC. split; lia. Qed.

Lemma in_domain_rem_defined C inp :
  C ≠ 0 → in_domain inp → Forall (rem_defined C) inp.
Proof.
  intros HC Hdom. eapply Forall_impl; [apply Hdom|].
  intros x [Hx _]. by apply rem_defined_nonneg.
Qed.

Lemma kernel_machine_wf C inp :
  fits_int inp → Forall (rem_defined C) inp → well_formed (kernel_machine C inp).
Proof.
  intros Hfit Hrem. split; simpl; [done | apply length_replicate | done | done].
Qed.

Lemma ModuloKernel_done v C inp :
  fits_int inp → Forall (rem_defined C) inp →
  Z.of_nat (length inp) `mod` stride v = 0 →
  ModuloKernel v C inp = Done (elem v C <$> inp).
Proof.
  intros Hfit Hrem Hmod. unfold ModuloKernel.
  by rewrite pass_done by (by apply kernel_machine_wf || done).
Qed.

Lemma elem_mod v C x : 0 ≤ x → 0 < C → elem v C x = x `mod` C.
Proof.
  intros Hx HC.
  assert (Hrem : x `rem` C = x `mod` C) by (apply Z.rem_mod_nonneg; lia).
  destruct v; simpl; try done;
    (rewrite Z.geb_leb; destruct (Z.leb_spec C x);
       [done | symmetry; apply Z.mod_small; lia]).
Qed.

Lemma elem_mod_neg v C x : 0 ≤ x → C < 0 → elem v C x = x `mod` (- C).
Proof.
  intros Hx HC.
  assert (Hrem : x `rem` C = x `mod` (- C)).
  { rewrite <- (Z.opp_involutive C) at 1.
    rewrite Z.rem_opp_r by lia. apply Z.rem_mod_nonneg; lia. }
  destruct v; simpl; try done;
    (rewrite Z.geb_leb; destruct (Z.leb_spec C x); [done | lia]).
Qed.

Lemma elem_small v C x : guarded v = true → x < C → elem v C x = x.
Proof.
  intros Hg Hx. destruct v; try discriminate; simpl;
    (rewrite Z.geb_leb; destruct (Z.leb_spec C x); [lia | done]).
Qed.

Lemma fmap_elem_mod v C inp :
  0 < C → in_domain inp → elem v C <$> inp = (λ x, x `mod` C) <$> inp.
Proof.
  intros HC Hdom. apply Forall_fmap_ext_1.
  eapply Forall_impl; [apply Hdom|]. intros x [Hx _]. by apply elem_mod.
Qed.

(** For inputs of the value domain and a positive ceiling, every strategy
    returns the element-wise mathematical modulo. *)
Lemma ModuloKernel_mod v C inp :
  in_domain inp → fits_int inp → 0 < C →
  Z.of_nat (length inp) `mod` stride v = 0 →
  ModuloKernel v C inp = Done ((λ x, x `mod` C) <$> inp).
Proof.
  intros Hdom Hfit HC Hmod.
  rewrite ModuloKernel_done
    by (done || (apply in_domain_rem_defined; [lia | done])).
  by rewrite fmap_elem_mod.
Qed.

Lemma mod_in_domain C inp :
  0 < C → in_domain inp → in_domain ((λ x, x `mod` C) <$> inp).
Proof.
  intros HC Hdom. apply Forall_fmap.
  eapply Forall_impl; [apply Hdom|]. intros x [Hlo Hhi]. simpl.
  pose proof (Z.mod_pos_bound x C HC).
  pose proof (Z.mod_le x C Hlo HC). lia.
Qed.

Lemma elem_mod_abs v C x : 0 ≤ x → C ≠ 0 → elem v C x = x `mod` Z.abs C.
Proof.
  intros Hx HC. destruct (Z.lt_trichotomy C 0) as [Hneg|[->|Hpos]]; [|done|].
  - rewrite Z.abs_neq by lia. by apply elem_mod_neg.
  - rewrite Z.abs_eq by lia. by apply elem_mod.
Qed.

Lemma stride_cases v :
  (unrolled v = false ∧ stride v = 1) ∨ (unrolled v = true ∧ stride v = 4).
Proof. destruct v; simpl; auto. Qed.

Lemma events_in_bounds v (n : nat) :
  Forall (λ a, 0 ≤ index a < Z.of_nat n) ((Z.of_nat <$> seq 0 n) ≫= events v).
Proof.
  apply Forall_bind, Forall_fmap, Forall_seq. intros i Hi.
  destruct v; simpl; repeat constructor; simpl; lia.
Qed.

Lemma writes_events v (l : list Z) : writes (l ≫= events v) = l.
Proof.
  unfold writes. induction l as [|i l IH]; [done|].
  rewrite bind_cons, bind_app, IH. by destruct v.
Qed.

(** The generator appends the grid to the pairs a benchmark already has
    and leaves its function alone. *)
Lemma custom_args_appends (b : Benchmark) :
  custom_args b
  = Done {| bench_fn := bench_fn b; bench_args := bench_args b ++ grid |}.
Proof.
  unfold custom_args, custom_args_loop, custom_args_inner, ArgPair. simpl.
  by rewrite <- !app_assoc.
Qed.

(** ** The fuel is enough *)

Lemma never_starves_bind {A B} (c : M A) (k : A → M B) :
  never_starves c → (∀ a, never_starves (k a)) → never_starves (bind c k).
Proof.
  intros Hc Hk m. rewrite bind_unfold.
  destruct (c m) as [[a m1]| | |] eqn:E; try done.
  - apply Hk.
  - by destruct (Hc m).
Qed.

Lemma never_starves_read_input i : never_starves (read_input i).
Proof.
  intros m. unfold read_input.
  destruct (in_bounds i (input m)); [|done].
  by destruct (input m !! Z.to_nat i).
Qed.

Lemma never_starves_write_output i x : never_starves (write_output i x).
Proof. intros m. unfold write_output. by destruct (in_bounds i (output m)). Qed.

Lemma never_starves_int_rem a b : never_starves (int_rem a b).
Proof.
  intros m. unfold int_rem. destruct (b =? 0); [done|].
  by destruct ((a =? INT_MIN) && (b =? -1)).
Qed.

Lemma never_starves_int_add a b : never_starves (int_add a b).
Proof. intros m. unfold int_add. by destruct (in_int (a + b)). Qed.

Lemma never_starves_get_ceil : never_starves get_ceil.
Proof. by intros m. Qed.

#[local] Hint Resolve never_starves_read_input never_starves_write_output
  never_starves_int_rem never_starves_int_add never_starves_get_ceil : frame.

Ltac starve_step :=
  repeat first
    [ apply never_starves_bind; [|intros ?]
    | match goal with |- never_starves (if ?b then _ else _) => destruct b end
    | solve [auto with frame] ].

Lemma never_starves_loop_body v i : never_starves (loop_body v i).
Proof.
  destruct v; simpl; unfold unroll4, assign_mod, assign_fast, assign_hint;
    starve_step.
Qed.

Lemma for_loop_fuel fuel step body :
  0 < step → (∀ i, preserves (body i)) → (∀ i, never_starves (body i)) →
  ∀ i m, N m - i ≤ Z.of_nat fuel → for_loop fuel step body i m ≠ OutOfFuel.
Proof.
  intros Hstep Hframe Hbody.
  induction fuel as [|fuel IH]; intros i m Hfuel; simpl;
    rewrite bind_unfold; unfold get_N;
    destruct (Z.ltb_spec i (N m)) as [Hlt|Hge]; try done; [lia|].
  rewrite bind_unfold.
  destruct (body i m) as [[[] m1]| | |] eqn:E; try done;
    [|by destruct (Hbody i m)].
  destruct (Hframe i m tt m1 E) as (HN & _).
  rewrite bind_unfold. unfold int_add.
  destruct (in_int (i + step)); [|done].
  apply IH. lia.
Qed.

(** A pass never comes back for want of fuel: whenever the model stops, the
    program does. *)
Lemma pass_never_starves v : never_starves (pass v).
Proof.
  intros m. unfold pass. apply for_loop_fuel.
  - destruct v; simpl; lia.
  - apply preserves_loop_body.
  - apply never_starves_loop_body.
  - lia.
Qed.

(** ** The benchmark functions run the kernel *)

Lemma to_int_id z : INT_MIN ≤ z ≤ INT_MAX → to_int z = z.
Proof.
  unfold INT_MIN, INT_MAX, to_int. intros Hz.
  rewrite Z.mod_small; lia.
Qed.

Lemma well_formed_upd m out t :
  well_formed m → length out = length (input m) → well_formed (upd m out t).
Proof. intros [? ? ? ?] Hlen. by split. Qed.

(** Every pass of the timing loop recomputes the same output. *)
Lemma while_KeepRunning_done v (k : nat) :
  ∀ m, well_formed m → (N m) `mod` (stride v) = 0 →
  ∃ t, while_KeepRunning (S k) (pass v) m
       = Done (tt, upd m (elem v (ceil m) <$> input m) t).
Proof.
  induction k as [|k IH]; intros m Hwf Hmod.
  - eexists. simpl. rewrite bind_unfold. by rewrite pass_done.
  - change (while_KeepRunning (S (S k)) (pass v))
      with (pass v ;;; while_KeepRunning (S k) (pass v)).
    rewrite bind_unfold, pass_done by done.
    edestruct (IH (upd m (elem v (ceil m) <$> input m)
                     ((Z.of_nat <$> seq 0 (length (input m))) ≫= events v)))
      as [t Ht].
    + apply well_formed_upd; [done | apply length_fmap].
    + done.
    + eexists. rewrite Ht. simpl. by rewrite upd_upd.
Qed.

(** With arguments [(N, C)] and at least one timing iteration, a benchmark
    function ends with the output the kernel gives on the drawn input. *)
Lemma benchmark_runs_kernel v s draw :
  0 ≤ range0 s ≤ INT_MAX → iterations s ≠ O →
  Forall (rem_defined (to_int (range1 s)))
    (draw <$> seq 0 (Z.to_nat (range0 s))) →
  (range0 s) `mod` (stride v) = 0 →
  ∃ m', benchmark v s draw machine0 = Done (tt, m')
        ∧ input m' = draw <$> seq 0 (Z.to_nat (range0 s))
        ∧ ModuloKernel v (to_int (range1 s)) (input m') = Done (output m').
Proof.
  intros Hn Hit Hrem Hmod.
  destruct (iterations s) as [|k] eqn:Hk; [done|].
  assert (Hmin : INT_MIN ≤ 0) by done.
  set (inp := draw <$> seq 0 (Z.to_nat (range0 s))).
  set (m1 := {| N := range0 s; ceil := to_int (range1 s); input := inp;
                output := replicate (Z.to_nat (range0 s)) 0; trace := [] |}).
  assert (Hlen : length inp = Z.to_nat (range0 s)).
  { unfold inp. by rewrite length_fmap, length_seq. }
  assert (Hfix : fixture s draw machine0 = Done (tt, m1)).
  { assert (Hf : (range0 s <? 0) = false) by (apply Z.ltb_ge; lia).
    unfold fixture, vector_resize, get_N.
    repeat (rewrite bind_unfold; simpl;
            rewrite ?(to_int_id (range0 s)), ?Hf by lia).
    by rewrite length_replicate. }
  assert (Hwf : well_formed m1).
  { split; simpl; [lia | rewrite length_replicate; lia | lia | done]. }
  destruct (while_KeepRunning_done v k m1 Hwf Hmod) as [t Ht].
  eexists. unfold benchmark. rewrite bind_unfold, Hfix, Hk, Ht.
  split; [done|]. split; [done|]. simpl.
  apply ModuloKernel_done; [unfold fits_int; lia | done | ].
  rewrite Hlen, Z2Nat.id by lia. done.
Qed.

(** The stride divides the element count as soon as the unrolled
    strategies get a multiple of four. *)
Lemma stride_divides v (n : Z) :
  (unrolled v = true → n `mod` 4 = 0) → n `mod` stride v = 0.
Proof.
  intros H. destruct (stride_cases v) as [[_ ->]|[Hun ->]].
  - apply Z.mod_1_r.
  - by apply H.
Qed.

(** * The specification, sentence by sentence *)

(** C1. For inputs in [0, 255] and a positive ceiling, with an element
    count that is a multiple of four where an unrolled strategy is
    involved, any two of the five strategies run to completion and return
    the same output sequence. *)
Theorem variants_agree (v1 v2 : variant) (C : Z) (inp : list Z) :
  in_domain inp → fits_int inp → 0 < C →
  (unrolled v1 = true → Z.of_nat (length inp) `mod` 4 = 0) →
  (unrolled v2 = true → Z.of_nat (length inp) `mod` 4 = 0) →
  ∃ out, ModuloKernel v1 C inp = Done out ∧ ModuloKernel v2 C inp = Done out.
Proof.
  intros Hdom Hfit HC H1 H2.
  apply stride_divides in H1, H2. exists ((λ x, x `mod` C) <$> inp).
  split; by apply ModuloKernel_mod.
Qed.

Lemma variants_agree_witness :
  ∃ out, ModuloKernel BaseMod 32 [5; 40; 7; 200] = Done out
         ∧ ModuloKernel FastModHintUnroll 32 [5; 40; 7; 200] = Done out.
Proof.
  apply variants_agree.
  - unfold in_domain. repeat constructor; lia.
  - unfold fits_int. vm_compute. discriminate.
  - lia.
  - reflexivity.
  - reflexivity.
Defined.

(** C2. For inputs in [0, 255] and a positive ceiling, every strategy
    (an unrolled one on a multiple of four elements) returns an output of
    the input's length whose element at each index is the input's element
    modulo the ceiling. *)
Theorem output_is_mod (v : variant) (C : Z) (inp : list Z) :
  in_domain inp → fits_int inp → 0 < C →
  (unrolled v = true → Z.of_nat (length inp) `mod` 4 = 0) →
  ∃ out, ModuloKernel v C inp = Done out
         ∧ length out = length inp
         ∧ ∀ (i : nat) x, inp !! i = Some x → out !! i = Some (x `mod` C).
Proof.
  intros Hdom Hfit HC Hmod. apply stride_divides in Hmod.
  exists ((λ x, x `mod` C) <$> inp).
  split; [by apply ModuloKernel_mod|]. split; [apply length_fmap|].
  intros i x Hx. by rewrite list_lookup_fmap, Hx.
Qed.

Lemma output_is_mod_witness :
  ∃ out, ModuloKernel UnrollMod 32 [5; 40; 7; 200] = Done out
         ∧ length out = length [5; 40; 7; 200]
         ∧ ∀ (i : nat) x, [5; 40; 7; 200] !! i = Some x
                          → out !! i = Some (x `mod` 32).
Proof.
  apply output_is_mod.
  - unfold in_domain. repeat constructor; lia.
  - unfold fits_int. vm_compute. discriminate.
  - lia.
  - reflexivity.
Defined.

(** C3. For inputs in [0, 255] and a positive ceiling, every element of
    the output of every strategy (an unrolled one on a multiple of four
    elements) is at least zero and below the ceiling. *)
Theorem output_below_ceiling (v : variant) (C : Z) (inp : list Z) :
  in_domain inp → fits_int inp → 0 < C →
  (unrolled v = true → Z.of_nat (length inp) `mod` 4 = 0) →
  ∃ out, ModuloKernel v C inp = Done out ∧ Forall (λ y, 0 ≤ y < C) out.
Proof.
  intros Hdom Hfit HC Hmod. apply stride_divides in Hmod.
  exists ((λ x, x `mod` C) <$> inp).
  split; [by apply ModuloKernel_mod|].
  apply Forall_fmap, Forall_true. intros x. simpl. by apply Z.mod_pos_bound.
Qed.

Lemma output_below_ceiling_witness :
  ∃ out, ModuloKernel FastMod 128 [5; 40; 7; 200] = Done out
         ∧ Forall (λ y, 0 ≤ y < 128) out.
Proof.
  apply output_below_ceiling.
  - unfold in_domain. repeat constructor; lia.
  - unfold fits_int. vm_compute. discriminate.
  - lia.
  - reflexivity.
Defined.

(** C4. For every input sequence and positive ceiling, the three guarded
    strategies (the unrolled one on a multiple of four elements) run to
    completion, and at every index whose input element is below the
    ceiling the output element is that input element; for a non-negative
    such element the remainder operation they skip would have returned
    the element itself. *)
Theorem fast_path_identity (v : variant) (C : Z) (inp : list Z) :
  guarded v = true → fits_int inp → 0 < C →
  (unrolled v = true → Z.of_nat (length inp) `mod` 4 = 0) →
  ∃ out, ModuloKernel v C inp = Done out
         ∧ ∀ (i : nat) x, inp !! i = Some x → x < C →
             out !! i = Some x
             ∧ (0 ≤ x → ∀ m, int_rem x C m = Done (x, m)).
Proof.
  intros Hg Hfit HC Hmod. apply stride_divides in Hmod.
  exists (elem v C <$> inp). split.
  - apply ModuloKernel_done; [done | | done].
    apply Forall_true. intros x. by apply rem_defined_pos.
  - intros i x Hx Hlt. split.
    + rewrite list_lookup_fmap, Hx. simpl. by rewrite elem_small.
    + intros Hpos m. rewrite int_rem_done by (by apply rem_defined_pos).
      by rewrite Z.rem_small.
Qed.

Lemma fast_path_identity_witness :
  ∃ out, ModuloKernel FastModHint 32 [5; 40; 7; 200] = Done out
         ∧ ∀ (i : nat) x, [5; 40; 7; 200] !! i = Some x → x < 32 →
             out !! i = Some x
             ∧ (0 ≤ x → ∀ m, int_rem x 32 m = Done (x, m)).
Proof.
  apply fast_path_identity.
  - reflexivity.
  - unfold fits_int. vm_compute. discriminate.
  - lia.
  - reflexivity.
Defined.

(** C5. For inputs in [0, 255] and a positive ceiling, the output of the
    kernel has all its elements below the ceiling and is a fixed point of
    the kernel with the same ceiling, whichever strategy is used for
    either application (an unrolled one on a multiple of four elements). *)
Theorem kernel_idempotent (v v' : variant) (C : Z) (inp : list Z) :
  in_domain inp → fits_int inp → 0 < C →
  (unrolled v = true → Z.of_nat (length inp) `mod` 4 = 0) →
  (unrolled v' = true → Z.of_nat (length inp) `mod` 4 = 0) →
  ∃ out, ModuloKernel v C inp = Done out
         ∧ Forall (λ y, y < C) out
         ∧ ModuloKernel v' C out = Done out.
Proof.
  intros Hdom Hfit HC Hmod Hmod'.
  apply stride_divides in Hmod, Hmod'. exists ((λ x, x `mod` C) <$> inp).
  split; [by apply ModuloKernel_mod|]. split.
  - apply Forall_fmap, Forall_true. intros x. simpl.
    by apply Z.mod_pos_bound.
  - rewrite ModuloKernel_mod.
    + f_equal. rewrite <- list_fmap_compose. apply list_fmap_ext.
      intros _ x _. simpl. apply Z.mod_mod. lia.
    + by apply mod_in_domain.
    + unfold fits_int. by rewrite length_fmap.
    + done.
    + by rewrite length_fmap.
Qed.

Lemma kernel_idempotent_witness :
  ∃ out, ModuloKernel BaseMod 32 [5; 40; 7; 200] = Done out
         ∧ Forall (λ y, y < 32) out
         ∧ ModuloKernel BaseMod 32 out = Done out.
Proof.
  apply kernel_idempotent.
  - unfold in_domain. repeat constructor; lia.
  - unfold fits_int. vm_compute. discriminate.
  - lia.
  - reflexivity.
  - reflexivity.
Defined.

(** The second scenario of the specification: exactly one unrolled group. *)
Example scenario_one_group (v : variant) :
  ModuloKernel v 4 [0; 1; 2; 3] = Done [0; 1; 2; 3].
Proof. destruct v; vm_compute; reflexivity. Qed.

(** C6. On the input [5, 40, 7, 200] with ceiling 32, each of the five
    strategies returns [5, 8, 7, 8]. *)
Theorem scenario_ceiling_32 (v : variant) :
  ModuloKernel v 32 [5; 40; 7; 200] = Done [5; 8; 7; 8].
Proof. destruct v; vm_compute; reflexivity. Qed.

(** C7, as the code has it. No strategy checks its arguments, and none
    ever rejects them. For inputs in [0, 255]: with a zero ceiling and a
    non-empty input the first remainder divides by zero, which is
    undefined; with a non-zero ceiling and an element count that is not a
    multiple of the stride (which only an unrolled strategy can have) the
    pass reads [input[N]], which is undefined; otherwise, and so for every
    negative ceiling, the pass completes and stores each element modulo
    the absolute value of the ceiling. *)
Theorem unchecked_preconditions (v : variant) (C : Z) (inp : list Z) :
  in_domain inp → fits_int inp →
  ModuloKernel v C inp
  = (if C =? 0 then
       match inp with
       | [] => Done []
       | _ :: _ => Undefined DivByZero
       end
     else if Z.of_nat (length inp) `mod` stride v =? 0 then
       Done ((λ x, x `mod` Z.abs C) <$> inp)
     else Undefined (OutOfBounds (RdInput (Z.of_nat (length inp)))))
  ∧ rejected (ModuloKernel v C inp) = false.
Proof.
  intros Hdom Hfit.
  assert (Heq : ModuloKernel v C inp
    = (if C =? 0 then
         match inp with
         | [] => Done []
         | _ :: _ => Undefined DivByZero
         end
       else if Z.of_nat (length inp) `mod` stride v =? 0 then
         Done ((λ x, x `mod` Z.abs C) <$> inp)
       else Undefined (OutOfBounds (RdInput (Z.of_nat (length inp)))))).
  { destruct (Z.eqb_spec C 0) as [->|HC].
    - destruct inp as [|x rest]; [by destruct v|].
      unfold ModuloKernel.
      rewrite (pass_div_zero v _ x rest); try done.
      by inversion Hdom as [|? ? [? ?] ?].
    - destruct (Z.eqb_spec (Z.of_nat (length inp) `mod` stride v) 0)
        as [Hmod|Hmod].
      + rewrite ModuloKernel_done by (done || by apply in_domain_rem_defined).
        f_equal. apply Forall_fmap_ext_1.
        eapply Forall_impl; [apply Hdom|]. intros x [Hx _].
        by apply elem_mod_abs.
      + destruct (stride_cases v) as [[_ Hs]|[Hun Hs]]; rewrite Hs in Hmod.
        * by rewrite Z.mod_1_r in Hmod.
        * unfold ModuloKernel. rewrite pass_past; try done.
          apply kernel_machine_wf; [done | by apply in_domain_rem_defined]. }
  split; [done|]. rewrite Heq.
  destruct (C =? 0); [by destruct inp|].
  by destruct (Z.of_nat (length inp) `mod` stride v =? 0).
Qed.

Lemma unchecked_preconditions_witness :
  ModuloKernel UnrollMod (-32) [5; 40; 7; 200] = Done [5; 8; 7; 8]
  ∧ rejected (ModuloKernel UnrollMod (-32) [5; 40; 7; 200]) = false.
Proof.
  apply (unchecked_preconditions UnrollMod (-32) [5; 40; 7; 200]).
  - unfold in_domain. repeat constructor; lia.
  - unfold fits_int. vm_compute. discriminate.
Defined.

(** C7, as stated, fails: the baseline strategy called with ceiling -32
    returns an output instead of failing, and that output is not below the
    ceiling; the unrolled strategy called on two elements does not reject
    them either. *)
Lemma negative_ceiling_not_rejected :
  ModuloKernel BaseMod (-32) [40] = Done [8]
  ∧ rejected (ModuloKernel BaseMod (-32) [40]) = false
  ∧ ¬ (8 < -32)
  ∧ ModuloKernel UnrollMod 32 [5; 40] = Undefined (OutOfBounds (RdInput 2))
  ∧ rejected (ModuloKernel UnrollMod 32 [5; 40]) = false.
Proof. repeat split; try reflexivity. lia. Qed.

(** C8. For the two unrolled strategies, inputs in [0, 255] and a positive
    ceiling: when the element count [N] is a multiple of four the pass
    completes, every access it makes has its index in [0, N), and the
    indices it writes are 0, 1, ..., N - 1 in this order, each once; when
    [N] is not a multiple of four the pass reads [input[N]], outside the
    vector. *)
Theorem unrolled_accesses (v : variant) (C : Z) (inp : list Z) :
  unrolled v = true → in_domain inp → fits_int inp → 0 < C →
  if Z.of_nat (length inp) `mod` 4 =? 0 then
    ∃ m', pass v (kernel_machine C inp) = Done (tt, m')
          ∧ Forall (λ a, 0 ≤ index a < Z.of_nat (length inp)) (trace m')
          ∧ writes (trace m') = Z.of_nat <$> seq 0 (length inp)
  else
    pass v (kernel_machine C inp)
    = Undefined (OutOfBounds (RdInput (Z.of_nat (length inp)))).
Proof.
  intros Hun Hdom Hfit HC.
  assert (Hwf : well_formed (kernel_machine C inp)).
  { apply kernel_machine_wf; [done|]. apply in_domain_rem_defined; [lia|done]. }
  assert (Hs : stride v = 4) by (by rewrite stride_unrolled, Hun).
  destruct (Z.eqb_spec (Z.of_nat (length inp) `mod` 4) 0) as [Hmod|Hmod].
  - eexists. split; [apply pass_done; [done | by rewrite Hs] |].
    simpl. split; [apply events_in_bounds | apply writes_events].
  - by apply (pass_past v _ Hwf Hun).
Qed.

Lemma unrolled_accesses_witness :
  ∃ m', pass FastModHintUnroll (kernel_machine 32 [5; 40; 7; 200]) = Done (tt, m')
        ∧ Forall (λ a, 0 ≤ index a < 4) (trace m')
        ∧ writes (trace m') = [0; 1; 2; 3].
Proof.
  apply (unrolled_accesses FastModHintUnroll 32 [5; 40; 7; 200]).
  - reflexivity.
  - unfold in_domain. repeat constructor; lia.
  - unfold fits_int. vm_compute. discriminate.
  - lia.
Defined.

(** C9. The argument generator produces the twelve pairs of sizes 16, 64,
    256, 1024 with ceilings 32, 128, 224, sizes outermost; each of the
    five benchmark functions is registered with these pairs and no
    others, and is therefore invoked once per pair. *)
Theorem registered_grid :
  grid = [ (16, 32); (16, 128); (16, 224); (64, 32); (64, 128); (64, 224);
           (256, 32); (256, 128); (256, 224);
           (1024, 32); (1024, 128); (1024, 224) ]
  ∧ length grid = 12%nat
  ∧ (∀ f, Apply custom_args (BENCHMARK f)
          = Done {| bench_fn := f; bench_args := grid |})
  ∧ registrations
    = (λ f, Done {| bench_fn := f; bench_args := grid |}) <$> variants
  ∧ Forall (λ r, ∃ b, r = Done b ∧ invocations b = (λ a, (bench_fn b, a)) <$> grid)
      registrations.
Proof.
  assert (Happly : ∀ f, Apply custom_args (BENCHMARK f)
                        = Done {| bench_fn := f; bench_args := grid |}).
  { intros f. unfold Apply. by rewrite custom_args_appends. }
  split; [reflexivity|]. split; [reflexivity|]. split; [exact Happly|].
  split.
  - unfold registrations. by rewrite !Happly.
  - unfold registrations. rewrite !Happly.
    repeat constructor; by eexists.
Qed.

(** C10. Whatever the machine a pass starts from, if it completes then
    [N], the ceiling and the input vector are what they were, and the
    output vector has kept its length: the pass assigns elements of the
    output and nothing else. *)
Theorem pass_frame (v : variant) (m m' : machine) :
  pass v m = Done (tt, m') →
  N m' = N m ∧ ceil m' = ceil m ∧ input m' = input m
  ∧ length (output m') = length (output m).
Proof. intros Hrun. by apply (preserves_pass v m tt m'). Qed.

Lemma pass_frame_witness :
  let m := kernel_machine 32 [5; 40; 7; 200] in
  let m' := upd m [5; 8; 7; 8]
              [RdInput 0; RdInput 0; WrOutput 0; RdInput 1; RdInput 1; WrOutput 1;
               RdInput 2; RdInput 2; WrOutput 2; RdInput 3; RdInput 3; WrOutput 3] in
  N m' = N m ∧ ceil m' = ceil m ∧ input m' = input m
  ∧ length (output m') = length (output m).
Proof.
  intros m m'. apply (pass_frame FastMod m m'). reflexivity.
Defined.

(** * Further properties of the code *)

(** ** The branch hint *)

Lemma builtin_expect_test (b : bool) :
  negb (builtin_expect (Z.b2z b) 0 =? 0) = b.
Proof. by destruct b. Qed.

Lemma assign_hint_fast i m : assign_hint i m = assign_fast i m.
Proof.
  unfold assign_hint, assign_fast. rewrite !bind_unfold.
  destruct (read_input i m) as [[x m1]| | |]; try reflexivity.
  rewrite !bind_unfold. unfold get_ceil at 1 3. cbn beta iota.
  by rewrite builtin_expect_test.
Qed.

(** Loops whose bodies agree in every state agree in every state. *)
Lemma for_loop_ext step (b1 b2 : Z → M unit) :
  (∀ i m, b1 i m = b2 i m) →
  ∀ fuel i m, for_loop fuel step b1 i m = for_loop fuel step b2 i m.
Proof.
  intros Hb. induction fuel as [|fuel IH]; intros i m; simpl; [done|].
  rewrite !bind_unfold. unfold get_N.
  destruct (i <? N m); [|done].
  rewrite !bind_unfold, Hb.
  destruct (b2 i m) as [[[] m1]| | |]; try reflexivity.
  rewrite !bind_unfold.
  destruct (int_add i step m1) as [[i' m2]| | |]; try reflexivity.
  apply IH.
Qed.

(** The hinted guarded strategy is the guarded strategy: in every state,
    valid or not, a pass of [fastModHint] has the outcome, the output and
    the accesses of a pass of [fastMod]. *)
Theorem hint_is_transparent (m : machine) :
  pass FastModHint m = pass FastMod m.
Proof. unfold pass. simpl. apply for_loop_ext, assign_hint_fast. Qed.

(** ** Unrolling *)

(** From an index [i] with [4 q] elements to go, the loop of stride one
    over a statement and the loop of stride four over the statement
    unrolled by four go through the same states, whatever becomes of the
    statement. *)
Lemma for_loop_unroll4 (stmt : Z → M unit) :
  (∀ i, preserves (stmt i)) →
  ∀ (q f1 f4 : nat) i m,
    0 ≤ i → N m = i + 4 * Z.of_nat q → N m ≤ INT_MAX →
    (4 * q ≤ f1)%nat → (q ≤ f4)%nat →
    for_loop f1 1 stmt i m = for_loop f4 4 (unroll4 stmt) i m.
Proof.
  intros Hp. assert (Hmin : INT_MIN ≤ 0) by done.
  induction q as [|q IH]; intros f1 f4 i m Hi HN Hmax Hf1 Hf4.
  - by rewrite !for_loop_exit by lia.
  - destruct f1 as [|[|[|[|f1]]]]; try lia. destruct f4 as [|f4]; [lia|].
    rewrite (for_loop_enter _ 4), (for_loop_enter _ 1) by lia.
    unfold unroll4. rewrite !bind_unfold.
    destruct (stmt i m) as [[[] m1]| | |] eqn:E1; try reflexivity.
    destruct (Hp i m tt m1 E1) as (HN1 & _).
    rewrite !bind_unfold, !int_add_done by lia. cbn beta iota.
    rewrite for_loop_enter by lia. rewrite !bind_unfold.
    destruct (stmt (i + 1) m1) as [[[] m2]| | |] eqn:E2; try reflexivity.
    destruct (Hp _ _ _ _ E2) as (HN2 & _).
    rewrite !bind_unfold, !int_add_done by lia. cbn beta iota.
    rewrite for_loop_enter by lia. rewrite !bind_unfold.
    replace (i + 1 + 1) with (i + 2) by lia.
    destruct (stmt (i + 2) m2) as [[[] m3]| | |] eqn:E3; try reflexivity.
    destruct (Hp _ _ _ _ E3) as (HN3 & _).
    rewrite !bind_unfold, !int_add_done by lia. cbn beta iota.
    rewrite for_loop_enter by lia. rewrite !bind_unfold.
    replace (i + 2 + 1) with (i + 3) by lia.
    destruct (stmt (i + 3) m3) as [[[] m4]| | |] eqn:E4; try reflexivity.
    destruct (Hp _ _ _ _ E4) as (HN4 & _).
    rewrite !bind_unfold, !int_add_done by lia. cbn beta iota.
    replace (i + 3 + 1) with (i + 4) by lia.
    apply IH; lia.
Qed.

(** Unrolling changes nothing: when [N] is an [int] and a multiple of four,
    a pass of an unrolled strategy has, in every state (valid or not,
    whatever the ceiling and the vectors), the outcome, the output and
    the accesses of a pass of the strategy it unrolls. *)
Theorem unrolling_is_transparent (m : machine) :
  N m ≤ INT_MAX → (N m) `mod` 4 = 0 →
  pass UnrollMod m = pass BaseMod m
  ∧ pass FastModHintUnroll m = pass FastModHint m.
Proof.
  intros Hmax Hmod. unfold pass. simpl.
  destruct (Z.le_gt_cases (N m) 0) as [Hle|Hpos].
  - by rewrite !for_loop_exit by lia.
  - apply Z.mod_divide in Hmod; [|done]. destruct Hmod as [q Hq].
    split; symmetry.
    + apply (for_loop_unroll4 _ (preserves_statement BaseMod) (Z.to_nat q));
        lia.
    + apply (for_loop_unroll4 _ (preserves_statement FastModHint) (Z.to_nat q));
        lia.
Qed.

Lemma unrolling_is_transparent_witness :
  pass UnrollMod (kernel_machine 0 [5; 40; 7; 200])
  = pass BaseMod (kernel_machine 0 [5; 40; 7; 200])
  ∧ pass FastModHintUnroll (kernel_machine 0 [5; 40; 7; 200])
    = pass FastModHint (kernel_machine 0 [5; 40; 7; 200]).
Proof.
  apply unrolling_is_transparent.
  - vm_compute. discriminate.
  - reflexivity.
Defined.

(** ** Outside the value domain *)

Lemma elem_guard_matters v v' C x :
  guarded v = true → guarded v' = false → 0 < C →
  elem v C x = elem v' C x ↔ - C < x.
Proof.
  intros Hg Hg' HC.
  assert (E : elem v C x = if x >=? C then x `rem` C else x)
    by (by destruct v).
  assert (E' : elem v' C x = x `rem` C) by (by destruct v').
  rewrite E, E', Z.geb_leb. destruct (Z.leb_spec C x) as [Hge|Hlt].
  - split; [lia | done].
  - split.
    + intros Hx. symmetry in Hx. apply Z.rem_small_iff in Hx; lia.
    + intros Hx. symmetry. apply Z.rem_small_iff; lia.
Qed.



(** ** The strategies of stride one *)

(** The three strategies that are not unrolled need no condition on the
    element count: whenever every remainder is defined, a pass completes,
    every access it makes has its index in [0, N), and the indices it
    writes are 0, 1, ..., N - 1 in this order, each once. *)
Theorem rolled_accesses (v : variant) (C : Z) (inp : list Z) :
  unrolled v = false → Forall (rem_defined C) inp → fits_int inp →
  ∃ m', pass v (kernel_machine C inp) = Done (tt, m')
        ∧ output m' = elem v C <$> inp
        ∧ Forall (λ a, 0 ≤ index a < Z.of_nat (length inp)) (trace m')
        ∧ writes (trace m') = Z.of_nat <$> seq 0 (length inp).
Proof.
  intros Hun Hrem Hfit.
  assert (Hs : stride v = 1) by (by rewrite stride_unrolled, Hun).
  eexists. split.
  - apply pass_done; [by apply kernel_machine_wf|].
    rewrite Hs. apply Z.mod_1_r.
  - simpl. split; [done|].
    split; [apply events_in_bounds | apply writes_events].
Qed.

Lemma rolled_accesses_witness :
  ∃ m', pass FastMod (kernel_machine (-32) [5; 40; 7]) = Done (tt, m')
        ∧ output m' = elem FastMod (-32) <$> [5; 40; 7]
        ∧ Forall (λ a, 0 ≤ index a < 3) (trace m')
        ∧ writes (trace m') = [0; 1; 2].
Proof.
  apply (rolled_accesses FastMod (-32) [5; 40; 7]).
  - reflexivity.
  - repeat constructor; unfold INT_MIN; lia.
  - unfold fits_int. vm_compute. discriminate.
Defined.

(** ** What only the fixture can do *)

Lemma never_throws_bind {A B} (c : M A) (k : A → M B) :
  never_throws c → (∀ a, never_throws (k a)) → never_throws (bind c k).
Proof.
  intros Hc Hk m e. rewrite bind_unfold.
  destruct (c m) as [[a m1]| | |] eqn:E; try done.
  - apply Hk.
  - by destruct (Hc m e0).
Qed.

Lemma never_throws_ret {A} (a : A) : never_throws (ret a).
Proof. by intros m e. Qed.

Lemma never_throws_read_input i : never_throws (read_input i).
Proof.
  intros m e. unfold read_input.
  destruct (in_bounds i (input m)); [|done].
  by destruct (input m !! Z.to_nat i).
Qed.

Lemma never_throws_write_output i x : never_throws (write_output i x).
Proof.
  intros m e. unfold write_output. by destruct (in_bounds i (output m)).
Qed.

Lemma never_throws_int_rem a b : never_throws (int_rem a b).
Proof.
  intros m e. unfold int_rem. destruct (b =? 0); [done|].
  by destruct ((a =? INT_MIN) && (b =? -1)).
Qed.

Lemma never_throws_int_add a b : never_throws (int_add a b).
Proof. intros m e. unfold int_add. by destruct (in_int (a + b)). Qed.

Lemma never_throws_get_ceil : never_throws get_ceil.
Proof. by intros m e. Qed.

Lemma never_throws_get_N : never_throws get_N.
Proof. by intros m e. Qed.

Lemma never_throws_out_of_fuel {A} : never_throws (@out_of_fuel A).
Proof. by intros m e. Qed.

Create HintDb throws.

#[local] Hint Resolve never_throws_ret never_throws_read_input
  never_throws_write_output never_throws_int_rem never_throws_int_add
  never_throws_get_ceil never_throws_get_N never_throws_out_of_fuel : throws.

Ltac throws_step :=
  repeat first
    [ apply never_throws_bind; [|intros ?]
    | match goal with |- never_throws (if ?b then _ else _) => destruct b end
    | solve [auto with throws] ].

Lemma never_throws_loop_body v i : never_throws (loop_body v i).
Proof.
  destruct v; simpl; unfold unroll4, assign_mod, assign_fast, assign_hint;
    throws_step.
Qed.

Lemma never_throws_for_loop fuel step body :
  (∀ i, never_throws (body i)) → ∀ i, never_throws (for_loop fuel step body i).
Proof.
  intros Hbody. induction fuel as [|fuel IH]; intros i; simpl.
  - throws_step.
  - apply never_throws_bind; [auto with throws|]. intros n.
    destruct (i <? n); [|auto with throws].
    apply never_throws_bind; [apply Hbody|]. intros _.
    apply never_throws_bind; [auto with throws|]. intros i'. apply IH.
Qed.

Lemma never_throws_pass v : never_throws (pass v).
Proof.
  intros m e. unfold pass.
  apply never_throws_for_loop, never_throws_loop_body.
Qed.

Lemma never_throws_while_KeepRunning k body :
  never_throws body → never_throws (while_KeepRunning k body).
Proof.
  intros Hbody. induction k as [|k IH]; simpl.
  - apply never_throws_ret.
  - apply never_throws_bind; [done | by intros _].
Qed.

Lemma to_int_range z : INT_MIN ≤ to_int z ≤ INT_MAX.
Proof.
  unfold INT_MIN, INT_MAX, to_int.
  pose proof (Z.mod_pos_bound (z + 2 ^ 31) (2 ^ 32)). lia.
Qed.

(** The prologue on arguments whose size converts to a non-negative
    [int]: both vectors get that many elements, the output all zero, the
    input the values drawn in order. *)
Lemma fixture_done s draw :
  0 ≤ to_int (range0 s) →
  fixture s draw machine0
  = Done (tt, fixture_machine (to_int (range0 s)) (to_int (range1 s)) draw).
Proof.
  intros Hn.
  assert (Hf : (to_int (range0 s) <? 0) = false) by (apply Z.ltb_ge; lia).
  unfold fixture, vector_resize, get_N.
  repeat (rewrite bind_unfold; simpl; rewrite ?Hf).
  by rewrite length_replicate.
Qed.

Lemma fixture_throws s draw :
  to_int (range0 s) < 0 → fixture s draw machine0 = Throw length_error.
Proof.
  intros Hn.
  assert (Hf : (to_int (range0 s) <? 0) = true) by (apply Z.ltb_lt; lia).
  unfold fixture, vector_resize, get_N.
  repeat (rewrite bind_unfold; simpl; rewrite ?Hf). done.
Qed.


(** ** The benchmark functions, end to end *)

Lemma fixture_machine_wf n c draw :
  0 ≤ n ≤ INT_MAX →
  Forall (rem_defined c) (draw <$> seq 0 (Z.to_nat n)) →
  well_formed (fixture_machine n c draw).
Proof.
  intros Hn Hrem. split; simpl.
  - rewrite length_fmap, length_seq. lia.
  - by rewrite length_replicate, length_fmap, length_seq.
  - lia.
  - done.
Qed.

Lemma drawn_in_domain (draw : nat → Z) (n : nat) :
  (∀ k, 0 ≤ draw k ≤ 255) → in_domain (draw <$> seq 0 n).
Proof. intros Hd. apply Forall_fmap, Forall_true. intros k. apply Hd. Qed.

(** The timing loop on the machine the prologue builds, for a positive
    ceiling and values of the domain. *)
Lemma timing_loop_mod v n c draw (k : nat) :
  0 ≤ n ≤ INT_MAX → 0 < c → (∀ j, 0 ≤ draw j ≤ 255) →
  n `mod` stride v = 0 →
  ∃ t, while_KeepRunning (S k) (pass v) (fixture_machine n c draw)
       = Done (tt, upd (fixture_machine n c draw)
                     ((λ x, x `mod` c) <$> (draw <$> seq 0 (Z.to_nat n))) t).
Proof.
  intros Hn Hc Hd Hmod.
  pose proof (drawn_in_domain draw (Z.to_nat n) Hd) as Hdom.
  destruct (while_KeepRunning_done v k (fixture_machine n c draw)) as [t Ht].
  - apply fixture_machine_wf; [done|].
    apply in_domain_rem_defined; [lia | done].
  - done.
  - exists t. rewrite Ht. simpl. by rewrite fmap_elem_mod.
Qed.



Lemma grid_is_valid :
  Forall (λ p, to_int p.1 = p.1 ∧ to_int p.2 = p.2
               ∧ 0 ≤ p.1 ∧ 0 < p.2 ∧ p.1 `mod` 4 = 0) grid.
Proof.
  unfold grid. simpl.
  repeat (constructor; [simpl; repeat split; (reflexivity || lia)|]).
  constructor.
Qed.

(** The program as registered stays within defined behaviour: on every
    argument pair the generator produces, every one of the five benchmark
    functions, run for any positive number of timing iterations on any
    values of the domain, completes with each input element modulo the
    ceiling in the output. *)
Theorem registered_runs_complete (v : variant) (n c : Z) (k : nat)
    (draw : nat → Z) :
  (n, c) ∈ grid → (∀ j, 0 ≤ draw j ≤ 255) →
  ∃ m', benchmark v {| range0 := n; range1 := c; iterations := S k |}
          draw machine0 = Done (tt, m')
        ∧ input m' = draw <$> seq 0 (Z.to_nat n)
        ∧ output m' = (λ x, x `mod` c) <$> input m'.
Proof.
  intros Hin Hd.
  pose proof grid_is_valid as Hgrid. rewrite Forall_forall in Hgrid.
  destruct (Hgrid _ Hin) as (Hn & Hc & Hn0 & Hc0 & Hmod). simpl in *.
  assert (Hmax : n ≤ INT_MAX) by (rewrite <- Hn; apply to_int_range).
  assert (Hs : n `mod` stride v = 0) by (by apply stride_divides).
  destruct (timing_loop_mod v n c draw k (conj Hn0 Hmax) Hc0 Hd Hs) as [t Ht].
  eexists. unfold benchmark.
  rewrite bind_unfold, fixture_done by (simpl; lia).
  cbn [range0 range1 iterations]. rewrite Hn, Hc, Ht. by simpl.
Qed.

Lemma registered_runs_complete_witness :
  ∃ m', benchmark FastModHintUnroll
          {| range0 := 16; range1 := 224; iterations := 1 |}
          (λ j, 200 + Z.of_nat j `mod` 50) machine0 = Done (tt, m')
        ∧ input m' = (λ j, 200 + Z.of_nat j `mod` 50) <$> seq 0 16
        ∧ output m' = (λ x, x `mod` 224) <$> input m'.
Proof.
  apply (registered_runs_complete FastModHintUnroll 16 224 0).
  - unfold grid. simpl. do 2 apply list_elem_of_further. apply list_elem_of_here.
  - intros j. pose proof (Z.mod_pos_bound (Z.of_nat j) 50). lia.
Defined.

Lemma while_KeepRunning_idle k (body : M unit) m :
  body m = Done (tt, m) → while_KeepRunning k body m = Done (tt, m).
Proof.
  intros Hbody. induction k as [|k IH]; simpl; [done|].
  by rewrite bind_unfold, Hbody.
Qed.



(** Repeating the pass changes nothing but the log: after any positive
    number of timing iterations over well-formed vectors the output is
    the output of the first pass, and [N], the ceiling and the input are
    as before. *)
Theorem timing_iterations_agree (v : variant) (k : nat) (m : machine) :
  well_formed m → (N m) `mod` (stride v) = 0 →
  ∃ m1 mk, pass v m = Done (tt, m1)
           ∧ while_KeepRunning (S k) (pass v) m = Done (tt, mk)
           ∧ output mk = output m1
           ∧ N mk = N m ∧ ceil mk = ceil m ∧ input mk = input m.
Proof.
  intros Hwf Hmod.
  destruct (while_KeepRunning_done v k m Hwf Hmod) as [t Ht].
  do 2 eexists. split; [by apply pass_done|]. split; [apply Ht|]. done.
Qed.

Lemma timing_iterations_agree_witness :
  ∃ m1 mk, pass FastMod (kernel_machine 32 [5; 40; 7; 200]) = Done (tt, m1)
           ∧ while_KeepRunning 3 (pass FastMod) (kernel_machine 32 [5; 40; 7; 200])
             = Done (tt, mk)
           ∧ output mk = output m1
           ∧ N mk = 4 ∧ ceil mk = 32 ∧ input mk = [5; 40; 7; 200].
Proof.
  apply (timing_iterations_agree FastMod 2 (kernel_machine 32 [5; 40; 7; 200])).
  - apply kernel_machine_wf.
    + unfold fits_int. vm_compute. discriminate.
    + repeat constructor; unfold INT_MIN; lia.
  - reflexivity.
Defined.

(** ** The argument generator, again *)

(** The generator adds to what a benchmark already has: applied twice, it
    leaves the function alone and the twelve pairs twice over after the
    pairs that were there. *)
Theorem custom_args_accumulates (b : Benchmark) :
  ∃ b1 b2, Apply custom_args b = Done b1
           ∧ Apply custom_args b1 = Done b2
           ∧ bench_fn b2 = bench_fn b
           ∧ bench_args b1 = bench_args b ++ grid
           ∧ bench_args b2 = bench_args b ++ grid ++ grid.
Proof.
  exists {| bench_fn := bench_fn b; bench_args := bench_args b ++ grid |},
    {| bench_fn := bench_fn b; bench_args := bench_args b ++ grid ++ grid |}.
  unfold Apply. rewrite !custom_args_appends.
  cbn [bench_fn bench_args]. by rewrite <- app_assoc.
Qed.

(** ** On arbitrary integers *)

Lemma int_rem_run x c m :
  int_rem x c m
  = if rem_ok c x then Done (x `rem` c, m) else Undefined (rem_ub c).
Proof.
  unfold int_rem, rem_ok, rem_ub, undefined, ret.
  destruct (c =? 0); simpl; [done|].
  by destruct ((x =? INT_MIN) && (c =? -1)).
Qed.

(** A statement on an element both vectors have either stores the
    element function of the element, or stops at the remainder. *)
Lemma statement_run v i m x :
  0 ≤ i → input m !! Z.to_nat i = Some x →
  (Z.to_nat i < length (output m))%nat →
  statement v i m
  = if safe v (ceil m) x
    then Done (tt, upd m (<[Z.to_nat i := elem v (ceil m) x]> (output m))
                         (events v i))
    else Undefined (rem_ub (ceil m)).
Proof.
  intros Hi Hx Hlt.
  destruct v; simpl; unfold assign_mod, assign_fast, assign_hint, safe, divides;
    simpl guarded; cbn [negb orb]; rewrite ?builtin_expect_test;
    rewrite bind_unfold, (read_input_done i m x) by done; cbn beta iota;
    rewrite bind_unfold; unfold get_ceil at 1; cbn beta iota;
    change (ceil (upd m (output m) [RdInput i])) with (ceil m);
    try (destruct (x >=? ceil m); cbn [negb orb]);
    rewrite ?builtin_expect_test;
    destruct (rem_ok (ceil m) x) eqn:Hok;
    repeat first
      [ rewrite (read_input_done i _ x) by done
      | rewrite int_rem_run
      | rewrite write_output_done by done
      | rewrite bind_unfold
      | progress unfold get_ceil
      | progress (cbn beta iota; cbn [ceil upd]; rewrite ?Hok) ];
    rewrite ?upd_upd; reflexivity.
Qed.

Lemma after_step v m (k : nat) x :
  input m !! k = Some x → (k < length (output m))%nat →
  upd (after v m k)
      (<[k := elem v (ceil m) x]> (output (after v m k)))
      (events v (Z.of_nat k))
  = after v m (S k).
Proof.
  intros Hx Hko.
  destruct (lookup_lt_is_Some_2 (output m) k Hko) as [z Hz].
  assert (Hpre : length (elem v (ceil m) <$> take k (input m)) = k).
  { rewrite length_fmap, length_take. apply lookup_lt_Some in Hx. lia. }
  unfold after at 1 2. rewrite upd_upd. simpl. unfold after. f_equal.
  - rewrite insert_app_r_alt by lia. rewrite Hpre, Nat.sub_diag.
    rewrite (drop_S _ _ _ Hz). simpl.
    rewrite (take_S_r _ _ _ Hx), fmap_app. simpl.
    by rewrite <- app_assoc.
  - rewrite seq_S, fmap_app, bind_app. simpl. by rewrite app_nil_r.
Qed.

(** The loop of stride one from index [k], with the elements below [k]
    done: it completes when every remaining element is safe, and stops
    at the first remainder that is not defined otherwise. *)
Lemma rolled_from v m fuel :
  shaped m →
  ∀ (r k : nat), (k + r = length (input m))%nat →
    for_loop (r + fuel) 1 (statement v) (Z.of_nat k) (after v m k)
    = if forallb (safe v (ceil m)) (drop k (input m))
      then Done (tt, after v m (length (input m)))
      else Undefined (rem_ub (ceil m)).
Proof.
  intros (HN & Hout & Hmax). assert (Hmin : INT_MIN ≤ 0) by done.
  induction r as [|r IH]; intros k Hk.
  - rewrite drop_ge by lia. simpl forallb. cbn iota.
    rewrite for_loop_exit by (simpl; lia).
    by replace k with (length (input m)) by lia.
  - assert (Hlt : (k < length (input m))%nat) by lia.
    destruct (lookup_lt_is_Some_2 (input m) k Hlt) as [x Hx].
    rewrite (drop_S _ _ _ Hx). simpl forallb.
    change (S r + fuel)%nat with (S (r + fuel)).
    rewrite for_loop_enter by (simpl; lia).
    rewrite bind_unfold, (statement_run v _ _ x).
    + rewrite Nat2Z.id.
      change (ceil (after v m k)) with (ceil m).
      rewrite after_step by (done || lia).
      destruct (safe v (ceil m) x); [|done]. cbn [andb].
      rewrite bind_unfold, int_add_done by lia.
      replace (Z.of_nat k + 1) with (Z.of_nat (S k)) by lia.
      apply IH. lia.
    + lia.
    + by rewrite Nat2Z.id.
    + rewrite Nat2Z.id. simpl.
      rewrite length_app, length_fmap, length_take, length_drop. lia.
Qed.

Lemma pass_as_rolled v m :
  N m ≤ INT_MAX → (unrolled v = true → (N m) `mod` 4 = 0) →
  pass v m = for_loop (Z.to_nat (N m)) 1 (statement v) 0 m.
Proof.
  intros Hmax Hmod. unfold pass. rewrite loop_body_statement, stride_unrolled.
  destruct (unrolled v); [|done].
  destruct (Z.le_gt_cases (N m) 0) as [Hle|Hpos].
  - by rewrite !for_loop_exit by lia.
  - destruct (Z.mod_divide (N m) 4 ltac:(done)) as [[q Hq] _]; [by apply Hmod|].
    symmetry.
    apply (for_loop_unroll4 _ (preserves_statement v) (Z.to_nat q)); lia.
Qed.

(** The kernel on arbitrary integers and any ceiling: it completes with
    the element function mapped over the input exactly when every element
    is safe for the strategy, and is undefined otherwise, by a division
    by zero when the ceiling is zero and by an overflowing remainder when
    it is not. A guarded strategy divides fewer elements and so is safe
    on more inputs. *)
Theorem kernel_outcome (v : variant) (C : Z) (inp : list Z) :
  fits_int inp →
  (unrolled v = true → Z.of_nat (length inp) `mod` 4 = 0) →
  ModuloKernel v C inp
  = if forallb (safe v C) inp then Done (elem v C <$> inp)
    else Undefined (rem_ub C).
Proof.
  intros Hfit Hmod. unfold ModuloKernel.
  rewrite pass_as_rolled by done.
  assert (Hshape : shaped (kernel_machine C inp)).
  { repeat split; simpl; [apply length_replicate | done]. }
  pose proof (rolled_from v (kernel_machine C inp) 0 Hshape
                (length inp) 0 eq_refl) as Hrun.
  rewrite after_0, after_all in Hrun by (simpl; apply length_replicate).
  cbn [N ceil input kernel_machine] in *.
  rewrite drop_0 in Hrun. change (Z.of_nat 0) with 0 in Hrun.
  replace (Z.to_nat (Z.of_nat (length inp))) with (length inp + 0)%nat by lia.
  rewrite Hrun. by destruct (forallb (safe v C) inp).
Qed.

Lemma kernel_outcome_witness :
  ModuloKernel BaseMod (-1) [5; -2147483648] = Undefined SignedOverflow
  ∧ ModuloKernel FastMod (-1) [-5; -2147483648] = Done [-5; -2147483648].
Proof.
  split.
  - apply (kernel_outcome BaseMod (-1) [5; -2147483648]).
    + unfold fits_int. vm_compute. discriminate.
    + discriminate.
  - apply (kernel_outcome FastMod (-1) [-5; -2147483648]).
    + unfold fits_int. vm_compute. discriminate.
    + discriminate.
Defined.
